(** * Solar system: the N-body integrator of [src/js/scripts.js]

    A shallow embedding of the simulation core of the three.js solar-system
    scene: the [Planet] class ([attract], [update], the force-arrow
    bookkeeping), the spawn handler [spawnObject] and the per-frame loop of
    [animate], together with the older variant of the same script (trace
    capacity 1000, no force map).

    JavaScript numbers are IEEE 754 binary64 values.  The embedding is written
    over an interface [Number] of the arithmetic the script uses, so that
    what does not depend on the arithmetic is proved once for any, and it is
    run and specified at Rocq's primitive binary64 floats, which evaluate
    exactly as the script does. *)

From Stdlib Require Import Floats.
From stdpp Require Import gmap strings list.

Set Warnings "-inexact-float".

(** ** The arithmetic of the script *)

Class Number (num : Type) := {
  nadd : num -> num -> num;          (* a + b *)
  nsub : num -> num -> num;          (* a - b *)
  nmul : num -> num -> num;          (* a * b *)
  ndiv : num -> num -> num;          (* a / b *)
  nsqrt : num -> num;                (* Math.sqrt(a) *)
  nmax : num -> num -> num;          (* Math.max(a, b) *)
  truthy : num -> bool;              (* ToBoolean(a), as used by a || b *)
  lit_0 : num;                       (* 0 *)
  lit_1 : num;                       (* 1 *)
  lit_G : num;                       (* 6.67e-11 *)
  lit_4e7 : num;                     (* 4e7 *)
  lit_1e_15 : num;                   (* 1e-15 *)
  lit_1e_9 : num                     (* 0.000000001 *)
}.

Declare Scope js_scope.
Delimit Scope js_scope with js.
Infix "+" := nadd : js_scope.
Infix "-" := nsub : js_scope.
Infix "*" := nmul : js_scope.
Infix "/" := ndiv : js_scope.

(** [a || b] on numbers: [a] when it is truthy, else [b]. *)
Definition or_else {num} `{Number num} (a b : num) : num :=
  if truthy a then a else b.

(** *** IEEE binary64, the numbers of the JavaScript engine *)

(** [Math.max]: NaN when either argument is NaN, and [-0] below [+0]. *)
Definition Math_max (a b : float) : float :=
  match PrimFloat.compare a b with
  | FLt => b
  | FGt => a
  | FEq => match PrimFloat.classify a with NZero => b | _ => a end
  | FNotComparable => PrimFloat.nan
  end.

(** ToBoolean of a number: false for [+0], [-0] and NaN. *)
Definition ToBoolean (a : float) : bool :=
  match PrimFloat.classify a with
  | PZero | NZero | NaN => false
  | _ => true
  end.

#[export] Instance float_Number : Number float := {|
  nadd := PrimFloat.add;
  nsub := PrimFloat.sub;
  nmul := PrimFloat.mul;
  ndiv := PrimFloat.div;
  nsqrt := PrimFloat.sqrt;
  nmax := Math_max;
  truthy := ToBoolean;
  lit_0 := 0%float;
  lit_1 := 1%float;
  lit_G := 6.67e-11%float;
  lit_4e7 := 4e7%float;
  lit_1e_15 := 1e-15%float;
  lit_1e_9 := 0.000000001%float
|}.

(** ** [THREE.Vector3]

    The vector class of three.js, with the methods the script calls.  In
    three.js [length], [distanceTo], [distanceToSquared] and [clone] only
    read their receiver; every other method works in place on its receiver
    and returns the receiver.  Here such a method returns the receiver's new
    value, and the places where the script keeps several names for one
    object are marked where they occur. *)

Section Model.
Context {num : Type} `{Number num}.
Local Open Scope js_scope.

Record Vector3 := mkVector3 { x : num; y : num; z : num }.

(** [new THREE.Vector3()] *)
Definition new_Vector3 : Vector3 := mkVector3 lit_0 lit_0 lit_0.

Definition copy (this v : Vector3) : Vector3 := mkVector3 (x v) (y v) (z v).

Definition clone (this : Vector3) : Vector3 := mkVector3 (x this) (y this) (z this).

Definition sub (this v : Vector3) : Vector3 :=
  mkVector3 (x this - x v) (y this - y v) (z this - z v).

Definition multiplyScalar (this : Vector3) (scalar : num) : Vector3 :=
  mkVector3 (x this * scalar) (y this * scalar) (z this * scalar).

Definition divideScalar (this : Vector3) (scalar : num) : Vector3 :=
  multiplyScalar this (lit_1 / scalar).

Definition Vector3_length (this : Vector3) : num :=
  nsqrt (x this * x this + y this * y this + z this * z this).

(** [this.divideScalar(this.length() || 1)] *)
Definition normalize (this : Vector3) : Vector3 :=
  divideScalar this (or_else (Vector3_length this) lit_1).

Definition distanceToSquared (this v : Vector3) : num :=
  let dx := x this - x v in
  let dy := y this - y v in
  let dz := z this - z v in
  dx * dx + dy * dy + dz * dz.

Definition distanceTo (this v : Vector3) : num :=
  nsqrt (distanceToSquared this v).

Definition addScaledVector (this v : Vector3) (s : num) : Vector3 :=
  mkVector3 (x this + x v * s) (y this + y v * s) (z this + z v * s).

(** ** The [Planet] class *)

(** What [new THREE.ArrowHelper(dir, origin, length, color)] is given. *)
Record ArrowHelper := mkArrowHelper {
  arrow_dir : Vector3;
  arrow_origin : Vector3;
  arrow_length : num
}.

(** The fields of a planet that the simulation reads or writes.  [position]
    is the constructor's argument, which no method touches afterwards; the
    integrator works on [mesh.position], here [mesh_position].  [forces] is
    the object used as a map from planet names to vectors.  [forceArrows]
    holds the children of the arrow group under the name of the planet they
    point to (the order of the children is the renderer's business).
    Geometry, material, atmosphere and the trace line are scene objects and
    are left out. *)
Record Planet := mkPlanet {
  name : string;
  size : num;
  position : Vector3;
  velocity : Vector3;
  mass : num;
  forceArrows : gmap string ArrowHelper;
  forces : gmap string Vector3;
  mesh_position : Vector3;
  tracePoints : list Vector3
}.

Definition set_velocity (v : Vector3) (p : Planet) : Planet :=
  mkPlanet (name p) (size p) (position p) v (mass p)
           (forceArrows p) (forces p) (mesh_position p) (tracePoints p).

Definition set_forceArrows (a : gmap string ArrowHelper) (p : Planet) : Planet :=
  mkPlanet (name p) (size p) (position p) (velocity p) (mass p)
           a (forces p) (mesh_position p) (tracePoints p).

Definition set_forces (f : gmap string Vector3) (p : Planet) : Planet :=
  mkPlanet (name p) (size p) (position p) (velocity p) (mass p)
           (forceArrows p) f (mesh_position p) (tracePoints p).

Definition set_mesh_position (v : Vector3) (p : Planet) : Planet :=
  mkPlanet (name p) (size p) (position p) (velocity p) (mass p)
           (forceArrows p) (forces p) v (tracePoints p).

Definition set_tracePoints (t : list Vector3) (p : Planet) : Planet :=
  mkPlanet (name p) (size p) (position p) (velocity p) (mass p)
           (forceArrows p) (forces p) (mesh_position p) t.

(** The locals of [attract], one definition per [const]. *)
Definition attract_distance (this planet : Planet) : num :=
  nmax (distanceTo (mesh_position this) (mesh_position planet)) lit_1.

Definition attract_dir (this planet : Planet) : Vector3 :=
  normalize (sub (copy new_Vector3 (mesh_position planet)) (mesh_position this)).

Definition attract_forceMagnitude (this planet : Planet) : num :=
  let G := lit_G in
  let distance := attract_distance this planet in
  G * mass this * mass planet / (distance * distance).

(** [dir.multiplyScalar(forceMagnitude)], the value of the vector right after
    line 181. *)
Definition attract_force (this planet : Planet) : Vector3 :=
  multiplyScalar (attract_dir this planet) (attract_forceMagnitude this planet).

(** [force.multiplyScalar(1 / this.mass)].  [multiplyScalar] scales its
    receiver, so from here on [dir], [force] and [acceleration] name one
    vector object whose value is this one. *)
Definition attract_acceleration (this planet : Planet) : Vector3 :=
  multiplyScalar (attract_force this planet) (lit_1 / mass this).

(** [attract(planet, dt)].  The assignment [this.forces[planet.name] = force]
    stores the object that [force] names, whose value by then is
    [attract_acceleration].  [forces] is a plain object: under the key
    ["__proto__"] the assignment reaches the setter that [forces] inherits
    from [Object.prototype], which makes the vector the prototype of
    [forces] and adds no entry. *)
Definition attract (this planet : Planet) (dt : num) : Planet :=
  let acceleration := attract_acceleration this planet in
  let force := acceleration in
  let this := set_velocity (addScaledVector (velocity this) acceleration dt) this in
  if decide (name planet = "__proto__") then this
  else set_forces (<[name planet := force]> (forces this)) this.

(** [createForceArrow(force)]: the arrow, and the value [force] is left with,
    since [force.normalize()] normalizes the vector it is called on. *)
Definition createForceArrow (force : Vector3) : ArrowHelper * Vector3 :=
  let origin := mkVector3 lit_0 lit_0 lit_0 in
  let forceMagnitude := Vector3_length force in
  let forceDir := normalize force in
  let arrowLength := forceMagnitude * lit_1e_15 in
  (mkArrowHelper forceDir origin arrowLength, forceDir).

(** [updateForceVisualization()]: the old arrows are removed, one arrow is
    made per entry of [forces], and every entry is passed to
    [createForceArrow], which normalizes it where it is stored. *)
Definition updateForceVisualization (this : Planet) : Planet :=
  let this := set_forceArrows ∅ this in
  let made := createForceArrow <$> forces this in
  let this := set_forceArrows (fst <$> made) this in
  set_forces (snd <$> made) this.

(** [tracePoints.push(p)] and then [shift()] when the length exceeds [cap]. *)
Definition push_trace (cap : nat) (p : Vector3) (trace : list Vector3)
  : list Vector3 :=
  let trace := trace ++ [p] in
  if Nat.ltb cap (length trace) then tail trace else trace.

Definition traceCapacity : nat := 2500.

(** [update(dt)] *)
Definition update (this : Planet) (dt : num) : Planet :=
  let this :=
    set_mesh_position (addScaledVector (mesh_position this) (velocity this) dt) this in
  let this :=
    set_tracePoints
      (push_trace traceCapacity (clone (mesh_position this)) (tracePoints this)) this in
  updateForceVisualization this.

(** *** The earlier variant of the script

    Same constructor and loop; [attract] keeps no force map, [update] draws
    no arrows and the trace holds 1000 points. *)

Definition attract_legacy (this planet : Planet) (dt : num) : Planet :=
  let acceleration := attract_acceleration this planet in
  set_velocity (addScaledVector (velocity this) acceleration dt) this.

Definition traceCapacity_legacy : nat := 1000.

Definition update_legacy (this : Planet) (dt : num) : Planet :=
  let this :=
    set_mesh_position (addScaledVector (mesh_position this) (velocity this) dt) this in
  set_tracePoints
    (push_trace traceCapacity_legacy (clone (mesh_position this)) (tracePoints this)) this.

End Model.

Arguments Vector3 num : clear implicits.
Arguments ArrowHelper num : clear implicits.
Arguments Planet num : clear implicits.

(** ** The scene: planet objects and the [planets] array

    Planets are objects, and the array [planets] holds references to them:
    [spawnObject] can put one object in the array twice, and the loop of
    [animate] compares references ([body !== otherBody]).  [heap] lists the
    planet objects in the order they were constructed, a reference is an
    index into it, and [planets] is the array of references. *)

Section Scene.
Context {num : Type} `{Number num}.
Local Open Scope js_scope.

Record World := mkWorld {
  heap : list (Planet num);
  planets : list nat
}.

(** [new Planet(name, size, texturePath, position, velocity, mass, ...)]:
    the reference to the new object and the scene with it.  The last
    statement of the constructor is [planets.push(this)]. *)
Definition new_Planet (name : string) (size : num) (position velocity : Vector3 num)
    (mass : num) (w : World) : nat * World :=
  let this :=
    mkPlanet name size position (multiplyScalar velocity lit_4e7) mass
             ∅ ∅ (mkVector3 (x position) (y position) (z position)) [] in
  let ref := length (heap w) in
  (ref, mkWorld (heap w ++ [this]) (planets w ++ [ref])).

(** [spawnObject(event)].  [planetMass], [planetSize] and [planetVelocity]
    are the three parsed form fields, [camera_position] is [camera.position]
    and [camera_direction] what [camera.getWorldDirection] writes into its
    argument. *)
Definition spawnObject (planetMass planetSize planetVelocity : num)
    (camera_position camera_direction : Vector3 num) (w : World) : World :=
  let obj_position := clone camera_position in
  let obj_velocity_dir := copy new_Vector3 camera_direction in
  let obj_velocity := multiplyScalar obj_velocity_dir planetVelocity in
  let '(object, w) :=
    new_Planet "new planet" planetSize obj_position obj_velocity planetMass w in
  mkWorld (heap w) (planets w ++ [object]).

(** A method call on a reference: the object is read from the heap and its
    new state written back.  References in [planets] always point into the
    heap ([wf] below); a dangling one would leave the scene as it is. *)
Definition call_attract (body otherBody : nat) (dt : num) (w : World) : World :=
  match heap w !! body, heap w !! otherBody with
  | Some this, Some planet =>
      mkWorld (<[body := attract this planet dt]> (heap w)) (planets w)
  | _, _ => w
  end.

Definition call_update (body : nat) (dt : num) (w : World) : World :=
  match heap w !! body with
  | Some this => mkWorld (<[body := update this dt]> (heap w)) (planets w)
  | None => w
  end.

(** The callback of the inner [forEach] of [animate]:
[[
      otherBody => { if (body !== otherBody) { body.attract(otherBody, dt); } }
]]
    [!==] on objects compares references. *)
Definition animate_inner (dt : num) (body : nat) (w : World) (otherBody : nat)
  : World :=
  if decide (body ≠ otherBody) then call_attract body otherBody dt w else w.

(** The callback of the outer [forEach]: the inner loop over [planets], then
    [body.update(dt)]. *)
Definition animate_body (dt : num) (w : World) (body : nat) : World :=
  let w := foldl (animate_inner dt body) w (planets w) in
  call_update body dt w.

(** [planets.forEach(body => ...)] for a given [dt]. *)
Definition animate_bodies (dt : num) (w : World) : World :=
  foldl (animate_body dt) w (planets w).

(** [animate()], for the clock delta and the value of the speed input. *)
Definition animate (delta speedFactor : num) (w : World) : World :=
  let globalFactor := lit_1e_9 in
  let dt := delta * speedFactor * globalFactor in
  animate_bodies dt w.

(** Every reference in the array points to an object. *)
Definition wf (w : World) : Prop :=
  Forall (fun r => r < length (heap w)) (planets w).

(** [this] after [attract] has been called on it with each planet of
    [others] in turn. *)
Definition attract_all (this : Planet num) (others : list (Planet num)) (dt : num)
  : Planet num :=
  foldl (fun this planet => attract this planet dt) this others.

(** The objects that the references of [refs] other than [body] point to,
    as they are in [w], in the order of [refs]. *)
Fixpoint others_of (w : World) (body : nat) (refs : list nat)
  : list (Planet num) :=
  match refs with
  | [] => []
  | r :: refs =>
      if decide (body ≠ r) then
        match heap w !! r with
        | Some planet => planet :: others_of w body refs
        | None => others_of w body refs
        end
      else others_of w body refs
  end.

End Scene.

Arguments World num : clear implicits.

(** ** Sequences of method calls on one planet

    The two variants of the class offer the same two methods. *)

Record PlanetClass (num : Type) := mkPlanetClass {
  m_attract : Planet num -> Planet num -> num -> Planet num;
  m_update : Planet num -> num -> Planet num;
  m_capacity : nat
}.
Arguments m_attract {num}.
Arguments m_update {num}.
Arguments m_capacity {num}.

Definition current_class {num} `{Number num} : PlanetClass num :=
  mkPlanetClass num attract update traceCapacity.

Definition legacy_class {num} `{Number num} : PlanetClass num :=
  mkPlanetClass num attract_legacy update_legacy traceCapacity_legacy.

Inductive call (num : Type) :=
| Attract (planet : Planet num) (dt : num)
| Update (dt : num).
Arguments Attract {num}.
Arguments Update {num}.

Definition run_call {num} (C : PlanetClass num) (this : Planet num) (c : call num)
  : Planet num :=
  match c with
  | Attract planet dt => m_attract C this planet dt
  | Update dt => m_update C this dt
  end.

Definition run_calls {num} (C : PlanetClass num) (this : Planet num)
    (cs : list (call num)) : Planet num :=
  foldl (run_call C) this cs.

(** The positions the [update] calls of [cs] reach, oldest first. *)
Fixpoint recorded {num} (C : PlanetClass num) (this : Planet num)
    (cs : list (call num)) : list (Vector3 num) :=
  match cs with
  | [] => []
  | c :: cs =>
      let this' := run_call C this c in
      match c with
      | Update _ => mesh_position this' :: recorded C this' cs
      | Attract _ _ => recorded C this' cs
      end
  end.

Fixpoint count_updates {num} (cs : list (call num)) : nat :=
  match cs with
  | [] => 0
  | Update _ :: cs => S (count_updates cs)
  | Attract _ _ :: cs => count_updates cs
  end.

(** ** Notions the statements below are phrased in *)

Section Statements.
Context {num : Type} `{Number num}.

(** What the trace bookkeeping relies on in a class: [attract] leaves the
    trace alone and [update] pushes the position it has reached. *)
Definition keeps_trace (C : PlanetClass num) : Prop :=
  (forall this planet dt,
     tracePoints (m_attract C this planet dt) = tracePoints this) /\
  (forall this dt,
     tracePoints (m_update C this dt)
     = push_trace (m_capacity C) (mesh_position (m_update C this dt))
                  (tracePoints this)).

(** The trace of [this] after the calls [cs] is a first-in first-out window
    of at most [m_capacity C] positions over its history, the trace it had
    followed by what the updates appended. *)
Definition fifo_trace (C : PlanetClass num) (this : Planet num)
    (cs : list (call num)) : Prop :=
  let after := run_calls C this cs in
  let appended := recorded C this cs in
  let history := tracePoints this ++ appended in
  length (tracePoints after) <= m_capacity C /\
  tracePoints after = drop (length history - m_capacity C) history /\
  forall k, count_updates cs = m_capacity C + k ->
    length (tracePoints after) = m_capacity C /\
    tracePoints after = drop k appended.


End Statements.

(** *** Over binary64 *)

(** A float that is a zero or NaN. *)
Definition zero_or_nan (a : float) : Prop :=
  Prim2SF a = S754_nan \/ exists s, Prim2SF a = S754_zero s.

Definition empty_scene : World float := mkWorld [] [].

Section Examples.
Local Open Scope float_scope.

(** The first planets of the script, built by its constructor calls. *)
Definition sun_earth : World float :=
  let '(_, w) :=
    new_Planet "Sun" 20 (mkVector3 0 0 0) (mkVector3 0 5 0) 1.989e30 empty_scene in
  let '(_, w) :=
    new_Planet "Earth" 6 (mkVector3 100 0 0) (mkVector3 0 5 29.78) 5.972e24 w in
  w.

Definition sun_earth_mars : World float :=
  let '(_, w) :=
    new_Planet "Mars" 4 (mkVector3 152 0 0) (mkVector3 0 5 24.07) 6.39e23 sun_earth in
  w.

(** The Earth alone. *)
Definition earth_alone : World float :=
  snd (new_Planet "Earth" 6 (mkVector3 100 0 0) (mkVector3 0 5 29.78) 5.972e24
                  empty_scene).

(** The same objects with the array in the opposite order. *)
Definition earth_sun : World float :=
  mkWorld (heap sun_earth) (reverse (planets sun_earth)).

Definition nowhere : Planet float :=
  mkPlanet "" 0 (mkVector3 0 0 0) (mkVector3 0 0 0) 0 ∅ ∅ (mkVector3 0 0 0) [].
Definition sun : Planet float := default nowhere (heap sun_earth_mars !! 0%nat).
Definition earth : Planet float := default nowhere (heap sun_earth_mars !! 1%nat).
Definition mars : Planet float := default nowhere (heap sun_earth_mars !! 2%nat).

(** One frame at 60 Hz with the speed input at 1. *)
Definition frame_dt : float := 0.016 * 1 * 0.000000001.

(** A probe next to the Sun, 0.0001 units away; one of mass zero and one of
    negative mass at Earth's place. *)
Definition probe : Planet float :=
  mkPlanet "probe" 1 (mkVector3 0.0001 0 0) (mkVector3 0 0 0) 1000
           ∅ ∅ (mkVector3 0.0001 0 0) [].
Definition massless : Planet float :=
  mkPlanet "massless" 1 (mkVector3 100 0 0) (mkVector3 0 0 0) 0
           ∅ ∅ (mkVector3 100 0 0) [].
Definition negative : Planet float :=
  mkPlanet "negative" 1 (mkVector3 100 0 0) (mkVector3 0 0 0) (-5.972e24)
           ∅ ∅ (mkVector3 100 0 0) [].

End Examples.

(** ** The rest of the script *)

(** *** Frames and calls *)

(** The frames that [renderer.setAnimationLoop(animate)] runs, one per
    element of [dts], each with its own time step. *)
Definition frames {num} `{Number num} (dts : list num) (w : World num)
  : World num :=
  foldl (fun w dt => animate_bodies dt w) w dts.

(** The names of the planets that the [attract] calls of [cs] are given. *)
Fixpoint attractor_names {num} (cs : list (call num)) : list string :=
  match cs with
  | [] => []
  | Attract planet _ :: cs => name planet :: attractor_names cs
  | Update _ :: cs => attractor_names cs
  end.

(** The fields no method assigns: [name], [size], [mass], and the
    [position] the constructor was given. *)
Definition same_identity {num} (before after : Planet num) : Prop :=
  name after = name before /\
  size after = size before /\
  mass after = mass before /\
  position after = position before.

(** Two planets spawned one after the other. *)
Definition two_spawned : World float :=
  spawnObject 1e20%float 3%float 10%float
              (mkVector3 (-90) 750 750)%float (mkVector3 0 0 (-1))%float
    (spawnObject 1e20%float 3%float 10%float
                 (mkVector3 (-90) 750 750)%float (mkVector3 0 0 (-1))%float
       sun_earth).

(** A planet whose position has a NaN in it. *)
Definition lost : Planet float :=
  mkPlanet "lost" 1%float (mkVector3 0 0 0)%float (mkVector3 0 0 0)%float 1%float
           ∅ ∅ (mkVector3 PrimFloat.nan 0 0)%float [].

(** *** Notions the further statements are phrased in *)

(** What the call-sequence facts need of a class: [attract] and [update]
    leave the identity of the planet alone, [attract] leaves its position
    alone, and the trace has room for a point. *)
Definition quiet_class {num} (C : PlanetClass num) : Prop :=
  (forall this planet dt,
     same_identity this (m_attract C this planet dt) /\
     mesh_position (m_attract C this planet dt) = mesh_position this) /\
  (forall this dt, same_identity this (m_update C this dt)) /\
  0 < m_capacity C.

(** The trace ends at the planet's current position. *)
Definition trace_at_position {num} (this : Planet num) : Prop :=
  last (tracePoints this) = Some (mesh_position this).

(** Binary64: NaN, by its specification. *)
Definition NaN_at (a : float) : Prop := Prim2SF a = S754_nan.

(** A vector with a NaN among its components, and one with nothing else. *)
Definition has_nan (v : Vector3 float) : bool :=
  is_nan (x v) || is_nan (y v) || is_nan (z v).

Definition all_nan (v : Vector3 float) : Prop :=
  is_nan (x v) = true /\ is_nan (y v) = true /\ is_nan (z v) = true.

(** The two planets of [two_spawned] that [spawnObject] made. *)
Definition spawned_1 : Planet float := default nowhere (heap two_spawned !! 2).
Definition spawned_2 : Planet float := default nowhere (heap two_spawned !! 3).

(** *** The law of attraction, operation by operation *)

Section Formula.
Local Open Scope float_scope.






End Formula.

(** A number after a step is the number before it as [===] has it, or it is
    NaN. *)
Definition kept_or_nan (before after : float) : Prop :=
  is_nan after = true \/ (after =? before)%float = true.

Definition kept_or_nan3 (before after : Vector3 float) : Prop :=
  kept_or_nan (x before) (x after) /\
  kept_or_nan (y before) (y after) /\
  kept_or_nan (z before) (z after).




(** * Properties *)

(** ** What [attract] writes *)

Section AttractFields.
Context {num : Type} `{Number num}.

Lemma attract_velocity (this planet : Planet num) dt :
  velocity (attract this planet dt)
  = addScaledVector (velocity this) (attract_acceleration this planet) dt.
Proof. unfold attract. simpl. by case_decide. Qed.

Lemma attract_mesh_position (this planet : Planet num) dt :
  mesh_position (attract this planet dt) = mesh_position this.
Proof. unfold attract. simpl. by case_decide. Qed.

Lemma attract_tracePoints (this planet : Planet num) dt :
  tracePoints (attract this planet dt) = tracePoints this.
Proof. unfold attract. simpl. by case_decide. Qed.

Lemma attract_forceArrows (this planet : Planet num) dt :
  forceArrows (attract this planet dt) = forceArrows this.
Proof. unfold attract. simpl. by case_decide. Qed.

Lemma attract_identity (this planet : Planet num) dt :
  name (attract this planet dt) = name this /\
  size (attract this planet dt) = size this /\
  position (attract this planet dt) = position this /\
  mass (attract this planet dt) = mass this.
Proof. unfold attract. simpl. by case_decide. Qed.

Lemma attract_forces (this planet : Planet num) dt :
  name planet <> "__proto__" ->
  forces (attract this planet dt)
  = <[name planet := attract_acceleration this planet]> (forces this).
Proof. intros Hn. unfold attract. simpl. by rewrite decide_False. Qed.

Lemma attract_forces_proto (this planet : Planet num) dt :
  name planet = "__proto__" ->
  forces (attract this planet dt) = forces this.
Proof. intros Hn. unfold attract. simpl. by rewrite decide_True. Qed.

End AttractFields.

(** ** The trace buffer *)

Section Trace.
Context {num : Type} `{Number num}.

Lemma clone_id (v : Vector3 num) : clone v = v.
Proof. by destruct v. Qed.

Lemma push_trace_last cap (p : Vector3 num) tr :
  0 < cap -> last (push_trace cap p tr) = Some p.
Proof.
  intros Hcap. unfold push_trace.
  destruct (Nat.ltb_spec cap (length (tr ++ [p]))) as [Hlt|Hle].
  - destruct tr as [|q tr]; simpl in *; [lia|]. apply last_snoc.
  - apply last_snoc.
Qed.

Lemma push_trace_drop cap (p : Vector3 num) tr :
  length tr <= cap ->
  push_trace cap p tr = drop (length (tr ++ [p]) - cap) (tr ++ [p]).
Proof.
  intros Hlen. unfold push_trace.
  destruct (Nat.ltb_spec cap (length (tr ++ [p]))) as [Hlt|Hle].
  - rewrite length_app in *. simpl in *.
    replace (length tr + 1 - cap) with 1 by lia.
    by destruct (tr ++ [p]).
  - by replace (length (tr ++ [p]) - cap) with 0 by lia.
Qed.

Lemma push_trace_length cap (p : Vector3 num) tr :
  length tr <= cap -> length (push_trace cap p tr) <= cap.
Proof.
  intros Hlen. unfold push_trace.
  destruct (Nat.ltb_spec cap (length (tr ++ [p]))) as [Hlt|Hle]; [|done].
  rewrite length_app in *. simpl in *.
  destruct tr; simpl in *; [lia|]. rewrite length_app. simpl. lia.
Qed.

Lemma current_keeps_trace : keeps_trace current_class.
Proof.
  split; intros; simpl; [apply attract_tracePoints|].
  unfold update; simpl; by rewrite ?clone_id.
Qed.

Lemma legacy_keeps_trace : keeps_trace legacy_class.
Proof. split; intros; simpl; unfold update_legacy; simpl; by rewrite ?clone_id. Qed.

Lemma recorded_length (C : PlanetClass num) cs : forall this,
  length (recorded C this cs) = count_updates cs.
Proof.
  induction cs as [|[planet dt|dt] cs IH]; intros this; simpl; auto.
Qed.

Lemma run_calls_trace_length (C : PlanetClass num) cs :
  keeps_trace C -> forall this,
  length (tracePoints this) <= m_capacity C ->
  length (tracePoints (run_calls C this cs)) <= m_capacity C.
Proof.
  intros [Hatt Hupd].
  induction cs as [|[planet dt|dt] cs IH]; intros this Hlen; simpl; auto.
  - apply IH. by rewrite Hatt.
  - apply IH. rewrite Hupd. by apply push_trace_length.
Qed.

(** From any trace within capacity: the trace after the calls is the tail of
    the old trace followed by what was appended. *)
Lemma run_calls_trace (C : PlanetClass num) cs :
  keeps_trace C -> forall this,
  length (tracePoints this) <= m_capacity C ->
  tracePoints (run_calls C this cs)
  = drop (length (tracePoints this ++ recorded C this cs) - m_capacity C)
         (tracePoints this ++ recorded C this cs).
Proof.
  intros [Hatt Hupd].
  induction cs as [|[planet dt|dt] cs IH]; intros this Hlen; simpl.
  - rewrite app_nil_r.
    by replace (length (tracePoints this) - m_capacity C) with 0 by lia.
  - rewrite IH by (by rewrite Hatt). by rewrite Hatt.
  - set (this' := m_update C this dt).
    assert (Hp : tracePoints this'
                 = drop (length (tracePoints this ++ [mesh_position this'])
                         - m_capacity C)
                        (tracePoints this ++ [mesh_position this'])).
    { unfold this'. rewrite Hupd. by apply push_trace_drop. }
    assert (Hl : length (tracePoints this') <= m_capacity C).
    { unfold this'. rewrite Hupd. by apply push_trace_length. }
    rewrite IH by done.
    set (rec := recorded C this' cs).
    set (l := tracePoints this ++ [mesh_position this']) in *.
    replace (tracePoints this ++ mesh_position this' :: rec) with (l ++ rec)
      by (unfold l; by rewrite <- app_assoc).
    rewrite Hp at 2.
    assert (Hd : length l - m_capacity C <= length l) by lia.
    rewrite <- (drop_app_le l rec _ Hd), drop_drop. f_equal.
    rewrite !length_app. rewrite Hp in Hl |- *.
    rewrite length_drop in Hl |- *. lia.
Qed.

Lemma keeps_trace_fifo (C : PlanetClass num) this cs :
  keeps_trace C -> length (tracePoints this) <= m_capacity C ->
  fifo_trace C this cs.
Proof.
  intros HC Hlen.
  pose proof (run_calls_trace C cs HC this Hlen) as Heq.
  pose proof (run_calls_trace_length C cs HC this Hlen) as Hle.
  unfold fifo_trace. cbv zeta. split; [done|]. split; [done|].
  intros k Hk.
  assert (Hdrop : tracePoints (run_calls C this cs) = drop k (recorded C this cs)).
  { rewrite Heq, length_app, recorded_length, Hk.
    rewrite drop_app_ge by lia. f_equal. lia. }
  split; [|exact Hdrop].
  rewrite Hdrop, length_drop, recorded_length, Hk. lia.
Qed.

(** C4: in either variant of the class, a planet whose trace is within the
    capacity (2500, or 1000 in the earlier variant; the constructor leaves it
    empty) keeps it within the capacity through any sequence of [attract] and
    [update] calls; the trace is then the last positions of its history,
    oldest first, and once the updates number capacity + k it holds exactly
    the capacity: the appended positions without the first k. *)
Theorem tracePoints_bounded_fifo (C : PlanetClass num) (this : Planet num)
    (cs : list (call num)) :
  C = current_class \/ C = legacy_class ->
  length (tracePoints this) <= m_capacity C ->
  (m_capacity current_class = 2500 /\ m_capacity legacy_class = 1000) /\
  fifo_trace C this cs.
Proof.
  intros HC Hlen. split; [by split|].
  apply keeps_trace_fifo; [|done].
  destruct HC as [->| ->]; [apply current_keeps_trace|apply legacy_keeps_trace].
Qed.

End Trace.

(** Earth, fresh from its constructor, through two frames of calls, in each
    variant. *)
Lemma tracePoints_bounded_fifo_witness :
  let cs := [Attract sun frame_dt; Update frame_dt;
             Attract sun frame_dt; Update frame_dt] in
  length (tracePoints earth) <= 1000 /\
  ((m_capacity current_class = 2500 /\ m_capacity legacy_class = 1000) /\
   fifo_trace current_class earth cs) /\
  ((m_capacity current_class = 2500 /\ m_capacity legacy_class = 1000) /\
   fifo_trace legacy_class earth cs).
Proof.
  cbv zeta. split; [simpl; lia|]. split.
  - apply (tracePoints_bounded_fifo current_class earth); [by left|simpl; lia].
  - apply (tracePoints_bounded_fifo legacy_class earth); [by right|simpl; lia].
Defined.

(** The eviction at work, in both variants: after capacity + 2 updates at
    unit speed the two oldest points are gone. *)
Example trace_overflow :
  let mover :=
    mkPlanet "mover" 1%float (mkVector3 0 0 0)%float (mkVector3 1 0 0)%float 1%float
             ∅ ∅ (mkVector3 0 0 0)%float [] in
  let after := run_calls current_class mover (replicate 2502 (Update 1%float)) in
  let after' := run_calls legacy_class mover (replicate 1002 (Update 1%float)) in
  (length (tracePoints after) = 2500 /\
   head (tracePoints after) = Some (mkVector3 3 0 0)%float /\
   last (tracePoints after) = Some (mkVector3 2502 0 0)%float) /\
  (length (tracePoints after') = 1000 /\
   head (tracePoints after') = Some (mkVector3 3 0 0)%float /\
   last (tracePoints after') = Some (mkVector3 1002 0 0)%float).
Proof. vm_compute. repeat split. Qed.

(** ** What [attract] and [update] write *)

Section Frame.
Context {num : Type} `{Number num}.
Implicit Types (w : World num) (dt : num) (body other r : nat).

Lemma call_attract_planets body other dt w :
  planets (call_attract body other dt w) = planets w.
Proof. unfold call_attract. by repeat case_match. Qed.

Lemma call_attract_length body other dt w :
  length (heap (call_attract body other dt w)) = length (heap w).
Proof. unfold call_attract. repeat case_match; simpl; by rewrite ?length_insert. Qed.

Lemma call_attract_other body other dt w r :
  r <> body -> heap (call_attract body other dt w) !! r = heap w !! r.
Proof.
  intros Hr. unfold call_attract. repeat case_match; simpl; try done.
  by apply list_lookup_insert_ne.
Qed.

Lemma call_attract_self body other dt w this planet :
  heap w !! body = Some this -> heap w !! other = Some planet ->
  heap (call_attract body other dt w) !! body = Some (attract this planet dt).
Proof.
  intros Hb Ho. unfold call_attract. rewrite Hb, Ho. simpl.
  apply list_lookup_insert_eq. by eapply lookup_lt_Some.
Qed.

Lemma call_update_planets body dt w : planets (call_update body dt w) = planets w.
Proof. unfold call_update. by case_match. Qed.

Lemma call_update_length body dt w :
  length (heap (call_update body dt w)) = length (heap w).
Proof. unfold call_update. case_match; simpl; by rewrite ?length_insert. Qed.

Lemma call_update_other body dt w r :
  r <> body -> heap (call_update body dt w) !! r = heap w !! r.
Proof.
  intros Hr. unfold call_update. case_match; simpl; try done.
  by apply list_lookup_insert_ne.
Qed.

Lemma call_update_self body dt w this :
  heap w !! body = Some this ->
  heap (call_update body dt w) !! body = Some (update this dt).
Proof.
  intros Hb. unfold call_update. rewrite Hb. simpl.
  apply list_lookup_insert_eq. by eapply lookup_lt_Some.
Qed.

(** The entry [attract] writes holds the acceleration. *)
Lemma attract_stores_acceleration (this planet : Planet num) dt :
  name planet <> "__proto__" ->
  forces (attract this planet dt) !! name planet
  = Some (attract_acceleration this planet).
Proof. intros Hn. rewrite attract_forces by done. apply lookup_insert_eq. Qed.

(** [update]: the new position is the old one plus [dt] times the velocity,
    it is the last point of the trace, velocity and mass stay, and every
    entry of [forces] is replaced by its normalization. *)
Lemma update_effect (this : Planet num) dt :
  let after := update this dt in
  mesh_position after = addScaledVector (mesh_position this) (velocity after) dt /\
  last (tracePoints after) = Some (mesh_position after) /\
  velocity after = velocity this /\
  mass after = mass this /\
  forces after = normalize <$> forces this.
Proof.
  unfold update. simpl. repeat split.
  - rewrite clone_id. apply push_trace_last. unfold traceCapacity. lia.
  - rewrite <- map_fmap_compose. reflexivity.
Qed.

(** C10: [body.attract(other, dt)] on two different objects leaves the
    array and every object but [body] as they were, [other] included; in
    [body] it leaves name, size, position, mesh position, mass, trace and
    arrows as they were and every entry of [forces] other than the one under
    [other.name].  In the earlier variant only the velocity is written. *)
Theorem attract_changes_velocity_and_one_force
    (w : World num) (body other : nat) (dt : num) (this planet : Planet num) :
  heap w !! body = Some this ->
  heap w !! other = Some planet ->
  body <> other ->
  let w' := call_attract body other dt w in
  let this' := attract this planet dt in
  (planets w' = planets w /\
   heap w' !! body = Some this' /\
   heap w' !! other = Some planet /\
   forall r, r <> body -> heap w' !! r = heap w !! r) /\
  (name this' = name this /\ size this' = size this /\
   position this' = position this /\ mesh_position this' = mesh_position this /\
   mass this' = mass this /\ tracePoints this' = tracePoints this /\
   forceArrows this' = forceArrows this /\
   forall k, k <> name planet -> forces this' !! k = forces this !! k) /\
  attract_legacy this planet dt
  = set_velocity (velocity (attract_legacy this planet dt)) this.
Proof.
  intros Hb Ho Hne w' this'. split; [|split].
  - split; [apply call_attract_planets|].
    split; [by apply call_attract_self|].
    split; [|intros r Hr; by apply call_attract_other].
    unfold w'. rewrite call_attract_other by done. exact Ho.
  - destruct (attract_identity this planet dt) as (Hn & Hs & Hp & Hm).
    repeat split; try done.
    + apply attract_mesh_position.
    + apply attract_tracePoints.
    + apply attract_forceArrows.
    + intros k Hk. unfold this'.
      destruct (decide (name planet = "__proto__")) as [Hproto|Hproto].
      * by rewrite attract_forces_proto.
      * rewrite attract_forces by done. by apply lookup_insert_ne.
  - reflexivity.
Qed.

(** [spawnObject]: one new object, two references to it. *)
Lemma spawnObject_effect (planetMass planetSize planetVelocity : num)
    (P D : Vector3 num) (w : World num) :
  let w' := spawnObject planetMass planetSize planetVelocity P D w in
  let object := length (heap w) in
  heap w' = heap w ++
    [mkPlanet "new planet" planetSize P
              (multiplyScalar (multiplyScalar D planetVelocity) lit_4e7)
              planetMass ∅ ∅ P []] /\
  planets w' = planets w ++ [object; object].
Proof.
  destruct P as [px py pz], D as [dx dy dz].
  unfold spawnObject, new_Planet. simpl.
  split; [reflexivity|by rewrite <- app_assoc].
Qed.

End Frame.

(** Earth attracted by the Sun in the three-planet scene. *)
Lemma attract_changes_velocity_and_one_force_witness :
  let w' := call_attract 1 0 frame_dt sun_earth_mars in
  let this' := attract earth sun frame_dt in
  (planets w' = planets sun_earth_mars /\
   heap w' !! 1 = Some this' /\
   heap w' !! 0 = Some sun /\
   forall r, r <> 1 -> heap w' !! r = heap sun_earth_mars !! r) /\
  (name this' = name earth /\ size this' = size earth /\
   position this' = position earth /\ mesh_position this' = mesh_position earth /\
   mass this' = mass earth /\ tracePoints this' = tracePoints earth /\
   forceArrows this' = forceArrows earth /\
   forall k, k <> name sun -> forces this' !! k = forces earth !! k) /\
  attract_legacy earth sun frame_dt
  = set_velocity (velocity (attract_legacy earth sun frame_dt)) earth.
Proof.
  apply (attract_changes_velocity_and_one_force sun_earth_mars 1 0 frame_dt earth sun);
    [reflexivity | reflexivity | lia].
Defined.

(** ** Telling two binary64 results apart *)

Lemma float_neq (a b : float) :
  PrimFloat.eqb a b = false -> PrimFloat.eqb a a = true -> a <> b.
Proof. intros Hab Haa ->. rewrite Hab in Haa. discriminate. Qed.

(** Closes [s <> t] for closed [s] and [t] that the projection [proj] sends
    to two different floats. *)
Ltac differ_at proj :=
  let Heq := fresh "Heq" in
  intros Heq; apply (f_equal proj) in Heq; revert Heq;
  apply float_neq; vm_compute; reflexivity.

(** Reversing the array changes what one frame does to the Sun and the
    Earth. *)
Lemma order_matters :
  heap (animate_bodies frame_dt sun_earth) <> heap (animate_bodies frame_dt earth_sun).
Proof.
  differ_at (fun h : list (Planet float) =>
               match h !! 1 with Some p => y (velocity p) | None => 0%float end).
Qed.

(** C8 as the code has it: the new planet is at the camera's position with
    velocity direction times speed times 4e7, it is one new object, and the
    array receives two references to it, one pushed by the constructor and
    one by [spawnObject] itself; so the array is not the old one extended by
    that one planet. *)
Theorem spawnObject_appends_two_references {num} `{Number num}
    (planetMass planetSize planetVelocity : num) (P D : Vector3 num) (w : World num) :
  let w' := spawnObject planetMass planetSize planetVelocity P D w in
  let object := length (heap w) in
  heap w' = heap w ++
    [mkPlanet "new planet" planetSize P
              (multiplyScalar (multiplyScalar D planetVelocity) lit_4e7)
              planetMass ∅ ∅ P []] /\
  planets w' = planets w ++ [object; object] /\
  planets w' <> planets w ++ [object].
Proof.
  intros w' object.
  destruct (spawnObject_effect planetMass planetSize planetVelocity P D w)
    as [Hheap Hplanets].
  fold w' object in Hheap, Hplanets.
  repeat split; try done.
  rewrite Hplanets. intros Heq. apply (f_equal length) in Heq.
  rewrite !length_app in Heq. simpl in Heq. lia.
Qed.

(** ** The loop of [animate] *)

Section Loop.
Context {num : Type} `{Number num}.
Implicit Types (w : World num) (dt : num) (body r : nat).

Lemma others_of_ext w w' body refs :
  (forall r, r <> body -> heap w' !! r = heap w !! r) ->
  others_of w' body refs = others_of w body refs.
Proof.
  intros Hext. induction refs as [|r refs IH]; simpl; [done|].
  rewrite IH. case_decide; [|done]. by rewrite Hext.
Qed.

(** The inner loop over [refs]. *)
Lemma inner_loop dt body refs : forall w this,
  heap w !! body = Some this ->
  Forall (fun r => r < length (heap w)) refs ->
  planets (foldl (animate_inner dt body) w refs) = planets w /\
  length (heap (foldl (animate_inner dt body) w refs)) = length (heap w) /\
  (forall r, r <> body ->
     heap (foldl (animate_inner dt body) w refs) !! r = heap w !! r) /\
  heap (foldl (animate_inner dt body) w refs) !! body
  = Some (attract_all this (others_of w body refs) dt).
Proof.
  induction refs as [|o refs IH]; intros w this Hb Hrefs; simpl; [done|].
  apply Forall_cons in Hrefs as [Ho Hrefs].
  destruct (decide (body ≠ o)) as [Hne|Heq].
  - replace (animate_inner dt body w o) with (call_attract body o dt w)
      by (unfold animate_inner; by rewrite decide_True).
    destruct (lookup_lt_is_Some_2 _ _ Ho) as [planet Hp]. rewrite Hp.
    pose proof (call_attract_self _ _ dt _ _ _ Hb Hp) as Hb'.
    destruct (IH (call_attract body o dt w) _ Hb') as (IH1 & IH2 & IH3 & IH4).
    { by rewrite call_attract_length. }
    rewrite IH1, IH2, IH4, call_attract_planets, call_attract_length.
    repeat split; try done.
    + intros r Hr. rewrite IH3 by done. by apply call_attract_other.
    + unfold attract_all. simpl. do 2 f_equal.
      apply others_of_ext. intros r Hr. by apply call_attract_other.
  - replace (animate_inner dt body w o) with w
      by (unfold animate_inner; by rewrite decide_False).
    by apply IH.
Qed.

Lemma animate_body_spec dt body w this :
  heap w !! body = Some this -> wf w ->
  planets (animate_body dt w body) = planets w /\
  length (heap (animate_body dt w body)) = length (heap w) /\
  (forall r, r <> body -> heap (animate_body dt w body) !! r = heap w !! r) /\
  heap (animate_body dt w body) !! body
  = Some (update (attract_all this (others_of w body (planets w)) dt) dt).
Proof.
  intros Hb Hwf. unfold animate_body.
  destruct (inner_loop dt body (planets w) w this Hb Hwf) as (I1 & I2 & I3 & I4).
  cbv zeta. rewrite call_update_planets, call_update_length.
  repeat split; try done.
  - intros r Hr. rewrite call_update_other by done. by apply I3.
  - by apply call_update_self.
Qed.
Lemma inner_frame dt body refs : forall w,
  planets (foldl (animate_inner dt body) w refs) = planets w /\
  length (heap (foldl (animate_inner dt body) w refs)) = length (heap w) /\
  (forall r, r <> body ->
     heap (foldl (animate_inner dt body) w refs) !! r = heap w !! r).
Proof.
  induction refs as [|o refs IH]; intros w; simpl; [done|].
  destruct (IH (animate_inner dt body w o)) as (IH1 & IH2 & IH3).
  rewrite IH1, IH2.
  assert (Hstep : planets (animate_inner dt body w o) = planets w /\
                  length (heap (animate_inner dt body w o)) = length (heap w) /\
                  forall r, r <> body ->
                    heap (animate_inner dt body w o) !! r = heap w !! r).
  { unfold animate_inner. case_decide; [|done].
    rewrite call_attract_planets, call_attract_length.
    repeat split; try done. intros r Hr. by apply call_attract_other. }
  destruct Hstep as (S1 & S2 & S3).
  repeat split; try done.
  intros r Hr. rewrite IH3 by done. by apply S3.
Qed.

Lemma animate_body_frame dt body w :
  planets (animate_body dt w body) = planets w /\
  length (heap (animate_body dt w body)) = length (heap w) /\
  (forall r, r <> body -> heap (animate_body dt w body) !! r = heap w !! r).
Proof.
  unfold animate_body. cbv zeta.
  destruct (inner_frame dt body (planets w) w) as (I1 & I2 & I3).
  rewrite call_update_planets, call_update_length.
  repeat split; try done.
  intros r Hr. rewrite call_update_other by done. by apply I3.
Qed.

Lemma outer_frame dt refs : forall w,
  planets (foldl (animate_body dt) w refs) = planets w /\
  length (heap (foldl (animate_body dt) w refs)) = length (heap w) /\
  (forall r, r ∉ refs -> heap (foldl (animate_body dt) w refs) !! r = heap w !! r).
Proof.
  induction refs as [|b refs IH]; intros w; simpl; [done|].
  destruct (IH (animate_body dt w b)) as (IH1 & IH2 & IH3).
  destruct (animate_body_frame dt b w) as (F1 & F2 & F3).
  rewrite IH1, IH2, F1, F2. repeat split; try done.
  intros r Hr. apply not_elem_of_cons in Hr as [Hne Hr].
  rewrite IH3 by done. by apply F3.
Qed.

Lemma wf_preserved w w' :
  planets w' = planets w -> length (heap w') = length (heap w) -> wf w -> wf w'.
Proof. unfold wf. by intros -> ->. Qed.

(** C5 as the code has it: in one frame each planet that occurs once in the
    array is attracted by every other planet of the array, in array order,
    and then updated.  When its turn comes the planets before it are already
    in the state the frame leaves them in, and it and the planets after it
    are still as the frame found them: a later planet computes with the
    updated positions of the earlier ones.  The outcome depends on the order
    of the array: the Sun and the Earth of the script end one frame in
    different states when the array is reversed. *)
Theorem animate_is_sequential (dt : num) (w : World num)
    (pre post : list nat) (body : nat) (this : Planet num) :
  wf w ->
  planets w = pre ++ body :: post ->
  body ∉ pre -> body ∉ post ->
  heap w !! body = Some this ->
  let seen := foldl (animate_body dt) w pre in
  let final := animate_bodies dt w in
  (forall e, e ∈ pre -> e ∉ post -> heap seen !! e = heap final !! e) /\
  (forall l, l ∉ pre -> heap seen !! l = heap w !! l) /\
  heap final !! body
  = Some (update (attract_all this (others_of seen body (planets w)) dt) dt) /\
  heap (animate_bodies frame_dt sun_earth) <> heap (animate_bodies frame_dt earth_sun).
Proof.
  intros Hwf Hpl Hpre Hpost Hb seen final.
  destruct (outer_frame dt pre w) as (S1 & S2 & S3). fold seen in S1, S2, S3.
  assert (Hfinal : final = foldl (animate_body dt) (animate_body dt seen body) post).
  { unfold final, animate_bodies. rewrite Hpl, foldl_app. reflexivity. }
  destruct (outer_frame dt post (animate_body dt seen body)) as (P1 & P2 & P3).
  rewrite <- Hfinal in P1, P2, P3.
  assert (Hseen : heap seen !! body = Some this) by (by rewrite S3).
  assert (Hwf' : wf seen) by (by apply (wf_preserved w)).
  destruct (animate_body_spec dt body seen this Hseen Hwf') as (B1 & B2 & B3 & B4).
  split; [|split; [|split]].
  - intros e He Hepost. rewrite P3 by done. symmetry. apply B3.
    intros ->. done.
  - done.
  - rewrite P3 by done. by rewrite B4, S1.
  - apply order_matters.
Qed.

End Loop.

(** The Earth between the Sun and Mars. *)
Lemma animate_is_sequential_witness :
  let seen := foldl (animate_body frame_dt) sun_earth_mars [0] in
  let final := animate_bodies frame_dt sun_earth_mars in
  (forall e, e ∈ [0] -> e ∉ [2] -> heap seen !! e = heap final !! e) /\
  (forall l, l ∉ [0] -> heap seen !! l = heap sun_earth_mars !! l) /\
  heap final !! 1
  = Some (update (attract_all earth (others_of seen 1 (planets sun_earth_mars))
                              frame_dt) frame_dt) /\
  heap (animate_bodies frame_dt sun_earth) <> heap (animate_bodies frame_dt earth_sun).
Proof.
  apply (animate_is_sequential frame_dt sun_earth_mars [0] [2] 1 earth).
  - unfold wf. repeat constructor; simpl; lia.
  - reflexivity.
  - apply not_elem_of_cons. split; [lia|apply not_elem_of_nil].
  - apply not_elem_of_cons. split; [lia|apply not_elem_of_nil].
  - reflexivity.
Defined.

(** The Earth comes after the Sun in the array.  Had it computed with the
    Sun's position from before the frame it would end as [update] of
    [attract earth sun]; it ends as [update] of [attract] by the Sun as the
    frame leaves it, which has moved. *)
Lemma later_body_sees_updated_positions :
  let final := animate_bodies frame_dt sun_earth in
  let sun_after := default nowhere (heap final !! 0) in
  heap final !! 1 <> Some (update (attract earth sun frame_dt) frame_dt) /\
  heap final !! 1 = Some (update (attract earth sun_after frame_dt) frame_dt) /\
  mesh_position sun_after <> mesh_position sun.
Proof.
  cbv zeta. split; [|split].
  - differ_at (fun o : option (Planet float) =>
                 match o with Some p => y (velocity p) | None => 0%float end).
  - vm_compute. reflexivity.
  - differ_at (fun v : Vector3 float => y v).
Qed.

(** ** In binary64: the distance floor, and a planet of mass zero *)

Lemma Math_max_floor (d : float) :
  (d <? 1)%float = true -> Math_max d 1 = 1%float.
Proof.
  intros Hlt. unfold Math_max.
  rewrite FloatAxioms.ltb_spec in Hlt. rewrite FloatAxioms.compare_spec.
  unfold SFltb in Hlt.
  destruct (SFcompare (Prim2SF d) (Prim2SF 1)) as [[]|]; simpl; congruence.
Qed.

(** C6: when the two positions are strictly less than 1 apart, the distance
    [attract] divides by is 1 and the force magnitude is [G * m1 * m2 / (1 * 1)],
    what it is for two planets exactly 1 apart. *)
Theorem distance_floored_at_1 (this planet : Planet float) :
  (distanceTo (mesh_position this) (mesh_position planet) <? 1)%float = true ->
  attract_distance this planet = 1%float /\
  attract_forceMagnitude this planet
  = (6.67e-11 * mass this * mass planet / (1 * 1))%float.
Proof.
  intros Hlt.
  assert (Hd : attract_distance this planet = 1%float).
  { unfold attract_distance. simpl. by apply Math_max_floor. }
  split; [exact Hd|].
  unfold attract_forceMagnitude. cbv zeta. rewrite Hd. reflexivity.
Qed.

(** The probe 0.0001 units from the Sun. *)
Lemma distance_floored_at_1_witness :
  (distanceTo (mesh_position probe) (mesh_position sun) <? 1)%float = true /\
  distanceTo (mesh_position probe) (mesh_position sun) = 0.0001%float /\
  attract_distance probe sun = 1%float /\
  attract_forceMagnitude probe sun
  = (6.67e-11 * mass probe * mass sun / (1 * 1))%float.
Proof.
  split; [reflexivity|]. split; [reflexivity|].
  apply (distance_floored_at_1 probe sun). reflexivity.
Defined.

Lemma eqb_0_zero (a : float) :
  (a =? 0)%float = true -> exists s, Prim2SF a = S754_zero s.
Proof.
  rewrite FloatAxioms.eqb_spec. unfold SFeqb.
  change (Prim2SF 0) with (S754_zero false).
  destruct (Prim2SF a) as [s|s| |s m e]; simpl; try discriminate; eauto.
  - by destruct s.
  - by destruct s.
Qed.

Lemma mul_zero_or_nan_l (a b : float) :
  zero_or_nan a -> zero_or_nan (a * b)%float.
Proof.
  unfold zero_or_nan. rewrite FloatAxioms.mul_spec. unfold SF64mul.
  intros [->|[s ->]]; [by left|].
  destruct (Prim2SF b); simpl; eauto.
Qed.

Lemma mul_zero_or_nan_r (a b : float) :
  zero_or_nan b -> zero_or_nan (a * b)%float.
Proof.
  unfold zero_or_nan. rewrite FloatAxioms.mul_spec. unfold SF64mul.
  intros [->|[s ->]]; destruct (Prim2SF a); simpl; eauto.
Qed.

Lemma div_zero_or_nan_l (a b : float) :
  zero_or_nan a -> zero_or_nan (a / b)%float.
Proof.
  unfold zero_or_nan. rewrite FloatAxioms.div_spec. unfold SF64div.
  intros [->|[s ->]]; [by left|].
  destruct (Prim2SF b); simpl; eauto.
Qed.

Lemma one_div_zero (a : float) s :
  Prim2SF a = S754_zero s -> exists s', Prim2SF (1 / a)%float = S754_infinity s'.
Proof.
  intros Ha. rewrite FloatAxioms.div_spec, Ha. unfold SF64div.
  change (Prim2SF 1) with (S754_finite false 4503599627370496 (-52)).
  simpl. eauto.
Qed.

Lemma mul_zero_or_nan_infinity (a b : float) s :
  zero_or_nan a -> Prim2SF b = S754_infinity s -> Prim2SF (a * b)%float = S754_nan.
Proof.
  intros Ha Hb. rewrite FloatAxioms.mul_spec, Hb. unfold SF64mul.
  destruct Ha as [->|[s' ->]]; reflexivity.
Qed.

Lemma mul_nan_l (a b : float) :
  Prim2SF a = S754_nan -> Prim2SF (a * b)%float = S754_nan.
Proof. intros Ha. rewrite FloatAxioms.mul_spec, Ha. reflexivity. Qed.

Lemma add_nan_r (a b : float) :
  Prim2SF b = S754_nan -> Prim2SF (a + b)%float = S754_nan.
Proof.
  intros Hb. rewrite FloatAxioms.add_spec, Hb. unfold SF64add.
  by destruct (Prim2SF a).
Qed.

Lemma is_nan_spec (a : float) : Prim2SF a = S754_nan -> is_nan a = true.
Proof. intros Ha. unfold is_nan. rewrite FloatAxioms.eqb_spec, Ha. reflexivity. Qed.

(** With [this.mass] zero the force magnitude is a zero or NaN ... *)
Lemma zero_mass_forceMagnitude (this planet : Planet float) :
  (mass this =? 0)%float = true -> zero_or_nan (attract_forceMagnitude this planet).
Proof.
  intros Hm. apply eqb_0_zero in Hm as [s Hs].
  unfold attract_forceMagnitude. cbv zeta. simpl.
  apply div_zero_or_nan_l, mul_zero_or_nan_l, mul_zero_or_nan_r. right. eauto.
Qed.

(** ... and multiplied by [1 / this.mass], an infinity, it gives NaN. *)
Lemma zero_mass_acceleration (this planet : Planet float) :
  (mass this =? 0)%float = true ->
  Prim2SF (x (attract_acceleration this planet)) = S754_nan /\
  Prim2SF (y (attract_acceleration this planet)) = S754_nan /\
  Prim2SF (z (attract_acceleration this planet)) = S754_nan.
Proof.
  intros Hm. pose proof (zero_mass_forceMagnitude this planet Hm) as Hf.
  apply eqb_0_zero in Hm as [s Hs].
  destruct (one_div_zero _ _ Hs) as [s' Hinf].
  unfold attract_acceleration, attract_force, multiplyScalar. simpl.
  repeat split; eapply mul_zero_or_nan_infinity; eauto using mul_zero_or_nan_r.
Qed.

(** C9 as the code has it: [attract] is a total function, it checks nothing;
    when the mass of the attracted planet is zero ([+0] or [-0]) every
    component of its velocity is NaN afterwards, whatever the other planet,
    the positions and [dt] are, in both variants of the class. *)
Theorem zero_mass_velocity_is_NaN (this planet : Planet float) (dt : float) :
  (mass this =? 0)%float = true ->
  let v := velocity (attract this planet dt) in
  let v' := velocity (attract_legacy this planet dt) in
  (is_nan (x v) = true /\ is_nan (y v) = true /\ is_nan (z v) = true) /\
  (is_nan (x v') = true /\ is_nan (y v') = true /\ is_nan (z v') = true).
Proof.
  intros Hm.
  destruct (zero_mass_acceleration this planet Hm) as (Hx & Hy & Hz).
  assert (Hv : forall a : float, Prim2SF a = S754_nan ->
                 forall b, is_nan (b + a * dt)%float = true).
  { intros a Ha b. by apply is_nan_spec, add_nan_r, mul_nan_l. }
  cbv zeta. rewrite attract_velocity.
  unfold attract_legacy, addScaledVector. simpl.
  repeat split; by apply Hv.
Qed.

(** The massless planet at Earth's place, attracted by the Sun. *)
Lemma zero_mass_velocity_is_NaN_witness :
  let v := velocity (attract massless sun frame_dt) in
  let v' := velocity (attract_legacy massless sun frame_dt) in
  (is_nan (x v) = true /\ is_nan (y v) = true /\ is_nan (z v) = true) /\
  (is_nan (x v') = true /\ is_nan (y v') = true /\ is_nan (z v') = true).
Proof.
  apply (zero_mass_velocity_is_NaN massless sun frame_dt). reflexivity.
Defined.

(** A planet of negative mass at Earth's place, attracted by the Sun: every
    component of its velocity is finite afterwards. *)
Lemma negative_mass_velocity_is_finite :
  let v := velocity (attract negative sun frame_dt) in
  (mass negative <? 0)%float = true /\
  is_finite (x v) = true /\ is_finite (y v) = true /\ is_finite (z v) = true.
Proof. vm_compute. repeat split. Qed.

(** ** What ends up in [forces] *)

(** C2 on the Earth attracted by the Sun: the vector stored under ["Sun"] is
    the acceleration, the force vector scaled once more by [1 / this.mass];
    it is not the force vector, whose first component is the stored one
    times Earth's mass. *)
Theorem forces_entry_is_the_acceleration :
  let stored := forces (attract earth sun frame_dt) !! "Sun" in
  stored = Some (attract_acceleration earth sun) /\
  stored <> Some (attract_force earth sun) /\
  x (attract_force earth sun) = (-7.9228314360000001e+40)%float /\
  x (attract_acceleration earth sun) = (-13266630000000000)%float.
Proof.
  cbv zeta. split; [|split; [|split]].
  - apply (attract_stores_acceleration earth sun frame_dt).
    intros Hname. vm_compute in Hname. discriminate.
  - differ_at (fun o : option (Vector3 float) =>
                 match o with Some v => x v | None => 0%float end).
  - vm_compute. reflexivity.
  - vm_compute. reflexivity.
Qed.

(** C3 on the same planet: [update] rewrites the entry that [attract] left
    under ["Sun"]; it holds a unit vector afterwards. *)
Theorem update_normalizes_forces_entry :
  let before := attract earth sun frame_dt in
  let after := update before frame_dt in
  forces before !! "Sun" = Some (mkVector3 (-13266630000000000) 0 0)%float /\
  forces after !! "Sun" = Some (mkVector3 (-1) 0 0)%float /\
  forces after !! "Sun" <> forces before !! "Sun".
Proof.
  cbv zeta. split; [|split].
  - vm_compute. reflexivity.
  - vm_compute. reflexivity.
  - differ_at (fun o : option (Vector3 float) =>
                 match o with Some v => x v | None => 0%float end).
Qed.


(** ** Sequences of calls on one planet *)

Section Calls.
Context {num : Type} `{Number num}.

Lemma current_quiet : quiet_class current_class.
Proof.
  split; [|split].
  - intros this planet dt. simpl.
    destruct (attract_identity this planet dt) as (Hn & Hs & Hp & Hm).
    split; [by repeat split|apply attract_mesh_position].
  - intros this dt. by repeat split.
  - simpl. unfold traceCapacity. lia.
Qed.

Lemma legacy_quiet : quiet_class legacy_class.
Proof.
  repeat split. simpl. unfold traceCapacity_legacy. lia.
Qed.

Lemma same_identity_trans (a b c : Planet num) :
  same_identity a b -> same_identity b c -> same_identity a c.
Proof.
  intros (A1 & A2 & A3 & A4) (B1 & B2 & B3 & B4).
  repeat split; congruence.
Qed.

Lemma run_calls_identity (C : PlanetClass num) cs :
  quiet_class C -> forall this, same_identity this (run_calls C this cs).
Proof.
  intros (Hatt & Hupd & _).
  induction cs as [|[planet dt|dt] cs IH]; intros this; simpl.
  - by repeat split.
  - eapply same_identity_trans; [apply Hatt|apply IH].
  - eapply same_identity_trans; [apply Hupd|apply IH].
Qed.

(** X1: through any sequence of [attract] and [update] calls, in either
    variant, a planet keeps its name, size and mass, and its [position]
    property stays what the constructor was given: the simulated position
    lives in [mesh.position] only. *)
Theorem calls_keep_identity (this : Planet num) (cs : list (call num)) :
  same_identity this (run_calls current_class this cs) /\
  same_identity this (run_calls legacy_class this cs).
Proof.
  split; apply run_calls_identity; [apply current_quiet|apply legacy_quiet].
Qed.

Lemma run_calls_keeps_trace_end (C : PlanetClass num) cs :
  quiet_class C -> keeps_trace C -> forall this,
  trace_at_position this -> trace_at_position (run_calls C this cs).
Proof.
  intros (Hatt & _ & Hcap) (Htr & Hpush). unfold trace_at_position.
  induction cs as [|[planet dt|dt] cs IH]; intros this Hthis; simpl; [done| |].
  - apply IH. rewrite Htr. by rewrite (proj2 (Hatt this planet dt)).
  - apply IH. rewrite Hpush. by apply push_trace_last.
Qed.

Lemma run_calls_trace_end (C : PlanetClass num) cs :
  quiet_class C -> keeps_trace C -> forall this,
  1 <= count_updates cs -> trace_at_position (run_calls C this cs).
Proof.
  intros HQ HK.
  induction cs as [|[planet dt|dt] cs IH]; intros this Hn; simpl in *; [lia| |].
  - by apply IH.
  - apply run_calls_keeps_trace_end; [done..|].
    destruct HQ as (_ & _ & Hcap), HK as (_ & Hpush).
    unfold trace_at_position. rewrite Hpush. by apply push_trace_last.
Qed.

(** X2: once [update] has been called at least once, the trace is not
    empty and its last point is the planet's current position, whatever
    calls came before or after, in either variant. *)
Theorem trace_ends_at_position (this : Planet num) (cs : list (call num)) :
  1 <= count_updates cs ->
  trace_at_position (run_calls current_class this cs) /\
  trace_at_position (run_calls legacy_class this cs).
Proof.
  intros Hn. split.
  - apply run_calls_trace_end; [apply current_quiet|apply current_keeps_trace|done].
  - apply run_calls_trace_end; [apply legacy_quiet|apply legacy_keeps_trace|done].
Qed.

Lemma attract_acceleration_ext (this this' planet planet' : Planet num) :
  mesh_position this' = mesh_position this -> mass this' = mass this ->
  mesh_position planet' = mesh_position planet -> mass planet' = mass planet ->
  attract_acceleration this' planet' = attract_acceleration this planet.
Proof.
  intros H1 H2 H3 H4.
  unfold attract_acceleration, attract_force, attract_forceMagnitude,
    attract_dir, attract_distance.
  by rewrite H1, H2, H3, H4.
Qed.

(** X4: [forces] is keyed by name, so two planets of one name share an
    entry: after [attract] by the first and then by the second the map is
    what [attract] by the second alone leaves, while the velocity has
    received both accelerations. *)
Theorem same_name_shares_entry (this first second : Planet num) (dt1 dt2 : num) :
  name first = name second ->
  forces (attract (attract this first dt1) second dt2)
  = forces (attract this second dt2) /\
  velocity (attract (attract this first dt1) second dt2)
  = addScaledVector
      (addScaledVector (velocity this) (attract_acceleration this first) dt1)
      (attract_acceleration this second) dt2.
Proof.
  intros Hname.
  assert (Hacc : attract_acceleration (attract this first dt1) second
                 = attract_acceleration this second).
  { apply attract_acceleration_ext; try done.
    - apply attract_mesh_position.
    - apply attract_identity. }
  split.
  - destruct (decide (name second = "__proto__")) as [Hproto|Hproto].
    + rewrite !attract_forces_proto by congruence. done.
    + rewrite !attract_forces by congruence.
      rewrite Hacc, Hname. apply insert_insert_eq.
  - by rewrite !attract_velocity, Hacc.
Qed.

(** X3: no call removes a key of [forces]: after any sequence of calls the
    keys are the ones the planet had and the names of the planets it was
    attracted by, the name ["__proto__"] apart, under which nothing is
    stored. *)
Theorem forces_keys_only_grow (cs : list (call num)) : forall this : Planet num,
  dom (forces (run_calls current_class this cs))
  = dom (forces this)
    ∪ list_to_set (filter (fun key => key <> "__proto__") (attractor_names cs)).
Proof.
  induction cs as [|[planet dt|dt] cs IH]; intros this; simpl.
  - by rewrite (right_id_L ∅ (∪)).
  - rewrite IH.
    destruct (decide (name planet = "__proto__")) as [Hproto|Hproto].
    + rewrite attract_forces_proto by done.
      rewrite filter_cons_False; [done|]. intros Hne. by apply Hne.
    + rewrite attract_forces by done. rewrite filter_cons_True by done.
      rewrite dom_insert_L. simpl.
      rewrite (comm_L (∪) {[name planet]}). by rewrite <- (assoc_L (∪)).
  - rewrite IH. unfold update, updateForceVisualization. simpl.
    rewrite !dom_fmap_L. done.
Qed.

End Calls.

(** Earth attracted by the Sun and updated once. *)
Lemma trace_ends_at_position_witness :
  1 <= count_updates [Attract sun frame_dt; Update frame_dt] /\
  trace_at_position
    (run_calls current_class earth [Attract sun frame_dt; Update frame_dt]) /\
  trace_at_position
    (run_calls legacy_class earth [Attract sun frame_dt; Update frame_dt]).
Proof.
  split; [simpl; lia|].
  apply (trace_ends_at_position earth [Attract sun frame_dt; Update frame_dt]).
  simpl. lia.
Defined.

(** Earth attracted by the two planets that [spawnObject] named
    ["new planet"]. *)
Lemma same_name_shares_entry_witness :
  name spawned_1 = name spawned_2 /\
  forces (attract (attract earth spawned_1 frame_dt) spawned_2 frame_dt)
  = forces (attract earth spawned_2 frame_dt) /\
  velocity (attract (attract earth spawned_1 frame_dt) spawned_2 frame_dt)
  = addScaledVector
      (addScaledVector (velocity earth) (attract_acceleration earth spawned_1) frame_dt)
      (attract_acceleration earth spawned_2) frame_dt.
Proof.
  split; [reflexivity|].
  apply (same_name_shares_entry earth spawned_1 spawned_2 frame_dt frame_dt).
  reflexivity.
Defined.

(** ** Scenes: constructing, spawning, running frames *)

Section SceneFacts.
Context {num : Type} `{Number num}.
Implicit Types (w : World num) (dt : num) (body r : nat).

Lemma wf_fresh w : wf w -> length (heap w) ∉ planets w.
Proof.
  intros Hwf Hin. unfold wf in Hwf. rewrite Forall_forall in Hwf.
  apply Hwf in Hin. lia.
Qed.

(** X5: on a scene whose references are valid the constructor returns a
    reference that is not in the array yet, appends it once, stores the
    planet with its velocity scaled by 4e7 and its mesh at [position], leaves
    every other object alone, keeps the references valid, and keeps an array
    without repetitions free of them. *)
Theorem new_Planet_registers_once (nm : string) (sz ms : num)
    (pos vel : Vector3 num) (w : World num) :
  wf w ->
  let ref := fst (new_Planet nm sz pos vel ms w) in
  let w' := snd (new_Planet nm sz pos vel ms w) in
  (ref ∉ planets w) /\
  planets w' = planets w ++ [ref] /\
  heap w' !! ref
  = Some (mkPlanet nm sz pos (multiplyScalar vel lit_4e7) ms ∅ ∅ pos []) /\
  (forall r, r <> ref -> heap w' !! r = heap w !! r) /\
  wf w' /\
  (NoDup (planets w) -> NoDup (planets w')).
Proof.
  intros Hwf. simpl. destruct pos as [px py pz]. simpl.
  split; [by apply wf_fresh|]. split; [done|].
  split; [by rewrite list_lookup_middle|].
  split.
  { intros r Hr. destruct (decide (r < length (heap w))) as [Hlt|Hge].
    - by rewrite lookup_app_l.
    - rewrite lookup_app_r by lia.
      rewrite (lookup_ge_None_2 (heap w)) by lia.
      apply lookup_ge_None_2. simpl. lia. }
  split.
  { unfold wf in *. simpl. rewrite length_app. simpl.
    apply Forall_app. split.
    - eapply Forall_impl; [exact Hwf|]. simpl. intros; lia.
    - repeat constructor. lia. }
  intros Hnd. apply NoDup_app. split; [done|]. split.
  - intros r Hr Hin. apply list_elem_of_singleton in Hin as ->.
    by apply (wf_fresh w).
  - apply NoDup_singleton.
Qed.

Lemma spawnObject_wf (m s v : num) (P D : Vector3 num) w :
  wf w -> wf (spawnObject m s v P D w).
Proof.
  intros Hwf.
  destruct (spawnObject_effect m s v P D w) as [Hheap Hpl].
  unfold wf in *. rewrite Hheap, Hpl, length_app. simpl.
  apply Forall_app. split.
  - eapply Forall_impl; [exact Hwf|]. simpl. intros; lia.
  - repeat constructor; lia.
Qed.

Lemma animate_bodies_frame dt w :
  planets (animate_bodies dt w) = planets w /\
  length (heap (animate_bodies dt w)) = length (heap w) /\
  (forall r, r ∉ planets w -> heap (animate_bodies dt w) !! r = heap w !! r).
Proof. unfold animate_bodies. apply outer_frame. Qed.

Lemma frames_frame dts : forall w,
  planets (frames dts w) = planets w /\
  length (heap (frames dts w)) = length (heap w) /\
  (forall r, r ∉ planets w -> heap (frames dts w) !! r = heap w !! r).
Proof.
  induction dts as [|dt dts IH]; intros w; simpl; [done|].
  destruct (animate_bodies_frame dt w) as (A1 & A2 & A3).
  destruct (IH (animate_bodies dt w)) as (I1 & I2 & I3).
  unfold frames in *. simpl. rewrite I1, I2, A1, A2.
  repeat split; try done.
  intros r Hr. rewrite I3 by (by rewrite A1). by apply A3.
Qed.

(** X7: frames neither add nor remove planets: [animate] and any number of
    frames leave the array and the number of objects as they were, objects
    the array does not reference are untouched, and the references stay
    valid. *)
Theorem frames_keep_the_scene (delta speedFactor : num) (dts : list num) w :
  wf w ->
  (planets (animate delta speedFactor w) = planets w /\
   length (heap (animate delta speedFactor w)) = length (heap w)) /\
  planets (frames dts w) = planets w /\
  length (heap (frames dts w)) = length (heap w) /\
  (forall r, r ∉ planets w -> heap (frames dts w) !! r = heap w !! r) /\
  wf (frames dts w).
Proof.
  intros Hwf.
  destruct (frames_frame dts w) as (F1 & F2 & F3).
  destruct (animate_bodies_frame (delta * speedFactor * lit_1e_9)%js w) as (A1 & A2 & _).
  split; [by split|]. repeat split; try done.
  by apply (wf_preserved w).
Qed.

Lemma attract_all_keeps (this : Planet num) others dt :
  mesh_position (attract_all this others dt) = mesh_position this /\
  tracePoints (attract_all this others dt) = tracePoints this /\
  mass (attract_all this others dt) = mass this.
Proof.
  revert this. induction others as [|o others IH]; intros this; simpl; [done|].
  destruct (IH (attract this o dt)) as (I1 & I2 & I3).
  destruct (attract_identity this o dt) as (_ & _ & _ & Hm).
  unfold attract_all in *. simpl.
  by rewrite I1, I2, I3, attract_mesh_position, attract_tracePoints, Hm.
Qed.

(** The state a planet that occurs once in the array is left in by one
    frame, in terms of the scene [seen] when its turn comes. *)
Lemma frame_result dt w pre post body (this : Planet num) :
  wf w -> planets w = pre ++ body :: post ->
  body ∉ pre -> body ∉ post -> heap w !! body = Some this ->
  heap (animate_bodies dt w) !! body
  = Some (update (attract_all this
                    (others_of (foldl (animate_body dt) w pre) body (planets w)) dt)
                 dt).
Proof.
  intros Hwf Hpl Hpre Hpost Hb.
  set (seen := foldl (animate_body dt) w pre).
  destruct (outer_frame dt pre w) as (S1 & S2 & S3). fold seen in S1, S2, S3.
  assert (Hfinal : animate_bodies dt w
                   = foldl (animate_body dt) (animate_body dt seen body) post).
  { unfold animate_bodies. rewrite Hpl, foldl_app. reflexivity. }
  destruct (outer_frame dt post (animate_body dt seen body)) as (_ & _ & P3).
  rewrite <- Hfinal in P3.
  assert (Hseen : heap seen !! body = Some this) by (by rewrite S3).
  assert (Hwf' : wf seen) by (by apply (wf_preserved w)).
  destruct (animate_body_spec dt body seen this Hseen Hwf') as (_ & _ & _ & B4).
  rewrite P3 by done. by rewrite B4, S1.
Qed.

(** X6: a planet made by [spawnObject] is in the array twice, so one frame
    runs its attraction loop and its [update] twice: after the first frame
    following the spawn its trace holds two points, the positions after the
    first and after the second [update]. *)
Theorem spawned_planet_runs_twice (m s v : num) (P D : Vector3 num) w dt :
  wf w ->
  let w1 := spawnObject m s v P D w in
  let body := length (heap w) in
  let new := mkPlanet "new planet" s P
                      (multiplyScalar (multiplyScalar D v) lit_4e7) m ∅ ∅ P [] in
  let seen := foldl (animate_body dt) w1 (planets w) in
  let once := update (attract_all new (others_of seen body (planets w1)) dt) dt in
  let seen' := animate_body dt seen body in
  let twice := update (attract_all once (others_of seen' body (planets w1)) dt) dt in
  heap (animate_bodies dt w1) !! body = Some twice /\
  tracePoints twice = [mesh_position once; mesh_position twice].
Proof.
  intros Hwf w1 body new seen once seen' twice.
  destruct (spawnObject_effect m s v P D w) as [Hheap Hpl].
  fold w1 body new in Hheap, Hpl.
  assert (Hwf1 : wf w1) by (by apply spawnObject_wf).
  assert (Hfresh : body ∉ planets w) by (by apply wf_fresh).
  assert (Hnew : heap w1 !! body = Some new).
  { rewrite Hheap. by apply list_lookup_middle. }
  destruct (outer_frame dt (planets w) w1) as (S1 & S2 & S3).
  fold seen in S1, S2, S3.
  assert (Hseen : heap seen !! body = Some new) by (by rewrite S3).
  assert (Hwfs : wf seen) by (by apply (wf_preserved w1)).
  destruct (animate_body_spec dt body seen new Hseen Hwfs) as (B1 & B2 & _ & B4).
  fold seen' in B1, B2, B4. rewrite S1 in B4. fold once in B4.
  assert (Hwfs' : wf seen') by (by apply (wf_preserved seen)).
  destruct (animate_body_spec dt body seen' once B4 Hwfs') as (_ & _ & _ & C4).
  rewrite B1, S1 in C4. fold twice in C4.
  split.
  - unfold animate_bodies. rewrite Hpl. rewrite foldl_app. simpl.
    fold seen. fold seen'. exact C4.
  - assert (Ht : forall p : Planet num,
               tracePoints (update p dt)
               = push_trace traceCapacity (mesh_position (update p dt)) (tracePoints p)).
    { intros p. unfold update. simpl. by rewrite clone_id. }
    assert (Honce : tracePoints once = [mesh_position once]).
    { unfold once at 1. rewrite Ht. fold once.
      by rewrite (proj1 (proj2 (attract_all_keeps _ _ _))). }
    unfold twice at 1. rewrite Ht. fold twice.
    rewrite (proj1 (proj2 (attract_all_keeps _ _ _))), Honce. reflexivity.
Qed.

Lemma lone_planet_frame dt w body (this : Planet num) :
  planets w = [body] -> heap w !! body = Some this ->
  heap (animate_bodies dt w) !! body = Some (update this dt).
Proof.
  intros Hpl Hb.
  assert (Hwf : wf w).
  { unfold wf. rewrite Hpl. repeat constructor. by eapply lookup_lt_Some. }
  rewrite (frame_result dt w [] [] body this Hwf Hpl); try done;
    try apply not_elem_of_nil.
  rewrite Hpl. simpl. by rewrite decide_False by (intros Hne; by apply Hne).
Qed.

(** X8: a planet alone in the array is never attracted: any number of
    frames amount, for it, to the [update] calls alone, one per frame, and
    leave its velocity exactly what it was. *)
Theorem lone_planet_is_never_attracted (dts : list num) :
  forall (w : World num) body this,
  planets w = [body] -> heap w !! body = Some this ->
  heap (frames dts w) !! body
  = Some (run_calls current_class this (Update <$> dts)) /\
  velocity (run_calls current_class this (Update <$> dts)) = velocity this.
Proof.
  induction dts as [|dt dts IH]; intros w body this Hpl Hb; simpl; [done|].
  pose proof (lone_planet_frame dt w body this Hpl Hb) as Hstep.
  destruct (animate_bodies_frame dt w) as (A1 & _).
  destruct (IH (animate_bodies dt w) body (update this dt)) as (F1 & F2);
    [by rewrite A1|done|].
  split; [exact F1|]. etransitivity; [exact F2|].
  by destruct (update_effect this dt) as (_ & _ & Hv & _).
Qed.

End SceneFacts.

Lemma wf_sun_earth : wf sun_earth.
Proof. unfold wf. repeat constructor; simpl; lia. Qed.

Lemma wf_sun_earth_mars : wf sun_earth_mars.
Proof. unfold wf. repeat constructor; simpl; lia. Qed.

(** Mars added to the Sun and the Earth. *)
Lemma new_Planet_registers_once_witness :
  wf sun_earth /\
  fst (new_Planet "Mars" 4%float (mkVector3 152 0 0)%float (mkVector3 0 5 24.07)%float
                  6.39e23%float sun_earth) = 2 /\
  planets sun_earth_mars = planets sun_earth ++ [2] /\
  wf sun_earth_mars /\
  (NoDup (planets sun_earth) -> NoDup (planets sun_earth_mars)).
Proof.
  split; [exact wf_sun_earth|]. split; [reflexivity|].
  destruct (new_Planet_registers_once
              "Mars" 4%float 6.39e23%float (mkVector3 152 0 0)%float
              (mkVector3 0 5 24.07)%float sun_earth wf_sun_earth)
    as (_ & Hplanets & _ & _ & Hwf & Hnodup).
  split; [exact Hplanets|]. split; [exact Hwf|exact Hnodup].
Defined.

(** A planet spawned into the scene of the Sun and the Earth. *)
Lemma spawned_planet_runs_twice_witness :
  wf sun_earth /\
  exists once twice : Planet float,
    heap (animate_bodies frame_dt
            (spawnObject 1e20%float 3%float 10%float
                         (mkVector3 (-90) 750 750)%float (mkVector3 0 0 (-1))%float
                         sun_earth)) !! length (heap sun_earth) = Some twice /\
    tracePoints twice = [mesh_position once; mesh_position twice].
Proof.
  split; [exact wf_sun_earth|].
  pose proof (spawned_planet_runs_twice
                1e20%float 3%float 10%float
                (mkVector3 (-90) 750 750)%float (mkVector3 0 0 (-1))%float
                sun_earth frame_dt wf_sun_earth) as Hrun.
  cbv zeta in Hrun. destruct Hrun as [Hheap Htrace].
  eexists _, _. split; [exact Hheap|exact Htrace].
Defined.

(** Three frames of the Sun, the Earth and Mars. *)
Lemma frames_keep_the_scene_witness :
  wf sun_earth_mars /\
  planets (frames [frame_dt; frame_dt; frame_dt] sun_earth_mars) = [0; 1; 2] /\
  length (heap (frames [frame_dt; frame_dt; frame_dt] sun_earth_mars)) = 3 /\
  wf (frames [frame_dt; frame_dt; frame_dt] sun_earth_mars).
Proof.
  split; [exact wf_sun_earth_mars|].
  destruct (frames_keep_the_scene frame_dt 1%float [frame_dt; frame_dt; frame_dt]
              sun_earth_mars wf_sun_earth_mars)
    as (_ & Hplanets & Hlength & _ & Hwf).
  split; [exact Hplanets|]. split; [exact Hlength|exact Hwf].
Defined.

(** The Earth alone, moving, over two frames. *)
Lemma lone_planet_is_never_attracted_witness :
  planets earth_alone = [0] /\ heap earth_alone !! 0 = Some earth /\
  heap (frames [frame_dt; frame_dt] earth_alone) !! 0
  = Some (run_calls current_class earth [Update frame_dt; Update frame_dt]) /\
  velocity (run_calls current_class earth [Update frame_dt; Update frame_dt])
  = velocity earth.
Proof.
  split; [reflexivity|]. split; [reflexivity|].
  apply (lone_planet_is_never_attracted [frame_dt; frame_dt] earth_alone 0 earth);
    reflexivity.
Defined.

(** ** In binary64: NaN in a position, and the floor for every distance *)

Lemma SFcompare_refl (s : spec_float) : s <> S754_nan -> SFcompare s s = Some Eq.
Proof.
  destruct s as [b|b| |b m e]; intros Hs; simpl; try done.
  - by destruct b.
  - destruct b; rewrite Z.compare_refl, Pos.compare_cont_refl; done.
Qed.

Lemma is_nan_inv (a : float) : is_nan a = true -> NaN_at a.
Proof.
  unfold is_nan, NaN_at. rewrite FloatAxioms.eqb_spec. unfold SFeqb.
  destruct (Prim2SF a) as [b|b| |b m e] eqn:Ha; [..|done|];
    by rewrite SFcompare_refl.
Qed.

Lemma NaN_sub_l a b : NaN_at a -> NaN_at (a - b)%float.
Proof. unfold NaN_at. intros Ha. by rewrite FloatAxioms.sub_spec, Ha. Qed.

Lemma NaN_sub_r a b : NaN_at b -> NaN_at (a - b)%float.
Proof.
  unfold NaN_at. intros Hb. rewrite FloatAxioms.sub_spec, Hb.
  by destruct (Prim2SF a).
Qed.

Lemma NaN_mul_l a b : NaN_at a -> NaN_at (a * b)%float.
Proof. unfold NaN_at. intros Ha. by rewrite FloatAxioms.mul_spec, Ha. Qed.

Lemma NaN_mul_r a b : NaN_at b -> NaN_at (a * b)%float.
Proof.
  unfold NaN_at. intros Hb. rewrite FloatAxioms.mul_spec, Hb.
  by destruct (Prim2SF a).
Qed.

Lemma NaN_add_l a b : NaN_at a -> NaN_at (a + b)%float.
Proof. unfold NaN_at. intros Ha. by rewrite FloatAxioms.add_spec, Ha. Qed.

Lemma NaN_add_r a b : NaN_at b -> NaN_at (a + b)%float.
Proof. unfold NaN_at. apply add_nan_r. Qed.

Lemma NaN_div_r a b : NaN_at b -> NaN_at (a / b)%float.
Proof.
  unfold NaN_at. intros Hb. rewrite FloatAxioms.div_spec, Hb.
  by destruct (Prim2SF a).
Qed.

Lemma NaN_sqrt a : NaN_at a -> NaN_at (PrimFloat.sqrt a).
Proof. unfold NaN_at. intros Ha. by rewrite FloatAxioms.sqrt_spec, Ha. Qed.

Lemma NaN_Math_max a : NaN_at a -> NaN_at (Math_max a 1).
Proof.
  unfold NaN_at, Math_max. intros Ha.
  by rewrite FloatAxioms.compare_spec, Ha.
Qed.

Lemma NaN_distanceTo (p q : Vector3 float) :
  has_nan p || has_nan q = true -> NaN_at (distanceTo p q).
Proof.
  intros Hhas. unfold distanceTo, distanceToSquared. simpl.
  apply NaN_sqrt. unfold has_nan in Hhas.
  repeat (apply orb_prop in Hhas as [Hhas|Hhas]); apply is_nan_inv in Hhas.
  - apply NaN_add_l, NaN_add_l, NaN_mul_l, NaN_sub_l, Hhas.
  - apply NaN_add_l, NaN_add_r, NaN_mul_l, NaN_sub_l, Hhas.
  - apply NaN_add_r, NaN_mul_l, NaN_sub_l, Hhas.
  - apply NaN_add_l, NaN_add_l, NaN_mul_l, NaN_sub_r, Hhas.
  - apply NaN_add_l, NaN_add_r, NaN_mul_l, NaN_sub_r, Hhas.
  - apply NaN_add_r, NaN_mul_l, NaN_sub_r, Hhas.
Qed.

(** X16: nothing checks the positions either.  In binary64, when any
    coordinate of either planet's position is NaN, [attract] leaves every
    component of the attracted planet's velocity NaN, in both variants, and
    the [update] that follows makes every coordinate of its position NaN. *)
Theorem NaN_position_poisons_velocity (this planet : Planet float) (dt : float) :
  has_nan (mesh_position this) || has_nan (mesh_position planet) = true ->
  all_nan (velocity (attract this planet dt)) /\
  all_nan (velocity (attract_legacy this planet dt)) /\
  all_nan (mesh_position (update (attract this planet dt) dt)).
Proof.
  intros Hhas.
  assert (Hf : NaN_at (attract_forceMagnitude this planet)).
  { unfold attract_forceMagnitude, attract_distance. cbv zeta. simpl.
    apply NaN_div_r, NaN_mul_l, NaN_Math_max, NaN_distanceTo, Hhas. }
  assert (Hv : forall u b : float, is_nan (b + u * attract_forceMagnitude this planet
                                             * (1 / mass this) * dt)%float = true).
  { intros u b. apply is_nan_spec, NaN_add_r, NaN_mul_l, NaN_mul_l, NaN_mul_r, Hf. }
  assert (Hvel : all_nan (velocity (attract this planet dt))).
  { rewrite attract_velocity. unfold addScaledVector. simpl.
    repeat split; apply Hv. }
  split; [exact Hvel|]. split.
  - unfold attract_legacy, addScaledVector. simpl. repeat split; apply Hv.
  - destruct Hvel as (Hx & Hy & Hz).
    unfold update, addScaledVector. simpl.
    repeat split; apply is_nan_spec, NaN_add_r, NaN_mul_l, is_nan_inv; assumption.
Qed.

Lemma SFcompare_Lt_Gt (a b : spec_float) :
  SFcompare a b = Some Lt -> SFcompare b a = Some Gt.
Proof.
  destruct a as [sa|sa| |sa ma ea], b as [sb|sb| |sb mb eb]; simpl;
    try (intros; congruence);
    try (destruct sa; intros; congruence);
    try (destruct sb; intros; congruence);
    try (destruct sa, sb; intros; congruence).
  pose proof (Z.compare_antisym ea eb) as HZ.
  pose proof (Pos.compare_antisym ma mb
              : Pos.compare_cont Eq mb ma = CompOpp (Pos.compare_cont Eq ma mb)) as HP.
  rewrite HZ, HP.
  destruct sa, sb; try (intros; congruence);
    destruct (ea ?= eb)%Z; simpl; try (intros; congruence);
    destruct (Pos.compare_cont Eq ma mb); simpl; intros; congruence.
Qed.

(** X17: in binary64, for all positions, the distance [attract] divides by
    is never below 1, and it is the distance between the two positions
    whenever that is above 1. *)
Theorem distance_never_below_1 (this planet : Planet float) :
  let d := distanceTo (mesh_position this) (mesh_position planet) in
  (attract_distance this planet <? 1)%float = false /\
  ((1 <? d)%float = true -> attract_distance this planet = d).
Proof.
  cbv zeta. unfold attract_distance.
  set (d := distanceTo (mesh_position this) (mesh_position planet)). clearbody d.
  simpl. split.
  - unfold Math_max. rewrite FloatAxioms.compare_spec.
    destruct (SFcompare (Prim2SF d) (Prim2SF 1)) as [[]|] eqn:Hc; simpl; try done.
    + destruct (classify d); try done;
        by rewrite FloatAxioms.ltb_spec; unfold SFltb; rewrite Hc.
    + rewrite FloatAxioms.ltb_spec. unfold SFltb. by rewrite Hc.
  - rewrite FloatAxioms.ltb_spec. unfold SFltb.
    destruct (SFcompare (Prim2SF 1) (Prim2SF d)) as [[]|] eqn:Hc; try done.
    intros _. apply SFcompare_Lt_Gt in Hc.
    unfold Math_max. by rewrite FloatAxioms.compare_spec, Hc.
Qed.

(** Earth attracted by a planet whose position has a NaN in it. *)
Lemma NaN_position_poisons_velocity_witness :
  has_nan (mesh_position earth) || has_nan (mesh_position lost) = true /\
  all_nan (velocity (attract earth lost frame_dt)) /\
  all_nan (velocity (attract_legacy earth lost frame_dt)) /\
  all_nan (mesh_position (update (attract earth lost frame_dt) frame_dt)).
Proof.
  split; [reflexivity|].
  apply (NaN_position_poisons_velocity earth lost frame_dt). reflexivity.
Defined.

(** ** In binary64: the law of attraction, and a time step of 0 *)




Lemma not_nan_inv (a : float) : is_nan a = false -> Prim2SF a <> S754_nan.
Proof. intros Hn Ha. apply is_nan_spec in Ha. congruence. Qed.



(** Adding a zero to a number that is not NaN gives a number [===] to it. *)
Lemma add_zero_eqb (v c : float) s :
  Prim2SF c = S754_zero s -> Prim2SF v <> S754_nan ->
  forall b, ((v + c) =? b)%float = (v =? b)%float.
Proof.
  intros Hc Hv b. rewrite !FloatAxioms.eqb_spec, FloatAxioms.add_spec, Hc.
  unfold SF64add, SFeqb.
  destruct (Prim2SF v) as [sv|sv| |sv mv ev]; try done.
  destruct sv, s, (Prim2SF b); reflexivity.
Qed.

Lemma eqb_refl_not_nan (v : float) :
  Prim2SF v <> S754_nan -> (v =? v)%float = true.
Proof.
  intros Hv. rewrite FloatAxioms.eqb_spec. unfold SFeqb.
  by rewrite SFcompare_refl.
Qed.

Lemma eqb_not_nan (v b : float) : (v =? b)%float = true -> Prim2SF v <> S754_nan.
Proof.
  rewrite FloatAxioms.eqb_spec. unfold SFeqb. intros Heq Hv.
  rewrite Hv in Heq. discriminate.
Qed.

Lemma kept_or_nan_refl (v : float) : kept_or_nan v v.
Proof.
  unfold kept_or_nan. destruct (is_nan v) eqn:Hn; [by left|right].
  by apply eqb_refl_not_nan, not_nan_inv.
Qed.

(** Adding a zero or a NaN keeps the number or makes it NaN. *)
Lemma kept_or_nan_add (b v c : float) :
  kept_or_nan b v -> zero_or_nan c -> kept_or_nan b (v + c)%float.
Proof.
  intros [Hn|Heq] Hc.
  - left. by apply is_nan_spec, NaN_add_l, is_nan_inv.
  - destruct Hc as [Hc|[s Hc]].
    + left. by apply is_nan_spec, add_nan_r.
    + right. rewrite (add_zero_eqb v c s); [done..|]. by eapply eqb_not_nan.
Qed.














(** ** In binary64: a paused scene *)

Lemma kept_or_nan3_add (b v a : Vector3 float) (dt : float) :
  zero_or_nan dt -> kept_or_nan3 b v -> kept_or_nan3 b (addScaledVector v a dt).
Proof.
  intros Hdt (Hx & Hy & Hz).
  repeat split; simpl; apply kept_or_nan_add; try done;
    by apply mul_zero_or_nan_r.
Qed.

Lemma kept_or_nan3_refl (v : Vector3 float) : kept_or_nan3 v v.
Proof. repeat split; apply kept_or_nan_refl. Qed.

Lemma attract_all_kept (dt : float) (others : list (Planet float)) :
  zero_or_nan dt -> forall (b : Vector3 float) (this : Planet float),
  kept_or_nan3 b (velocity this) ->
  kept_or_nan3 b (velocity (attract_all this others dt)).
Proof.
  intros Hdt. induction others as [|o others IH]; intros b this Hb; [done|].
  unfold attract_all in *. simpl. apply IH.
  rewrite attract_velocity. by apply kept_or_nan3_add.
Qed.

(** The time step of a frame with the speed input at 0. *)
Lemma paused_dt (delta : float) : zero_or_nan (delta * 0 * 0.000000001)%float.
Proof.
  apply mul_zero_or_nan_l, mul_zero_or_nan_r. right. by exists false.
Qed.

(** X9: with the speed input at 0 a frame changes no number into another:
    of a planet that occurs once in the array each component of the
    velocity and of the position is, as [===] has it, what it was, or NaN;
    the frame still pushes the position onto the trace, dropping the
    oldest point when the trace is full. *)
Theorem paused_frame_still_records (delta : float) (w : World float)
    (pre post : list nat) (body : nat) (this : Planet float) :
  wf w -> planets w = pre ++ body :: post ->
  body ∉ pre -> body ∉ post -> heap w !! body = Some this ->
  exists after,
    heap (animate delta 0%float w) !! body = Some after /\
    kept_or_nan3 (velocity this) (velocity after) /\
    kept_or_nan3 (mesh_position this) (mesh_position after) /\
    tracePoints after
    = push_trace traceCapacity (mesh_position after) (tracePoints this).
Proof.
  intros Hwf Hpl Hpre Hpost Hb. unfold animate. cbv zeta.
  change (@lit_1e_9 float _) with 0.000000001%float.
  change (@lit_0 float _) with 0%float.
  set (dt := (delta * 0 * 0.000000001)%float).
  assert (Hdt : zero_or_nan dt) by apply paused_dt.
  eexists. split; [by apply (frame_result dt w pre post body this)|].
  set (others := others_of _ _ _).
  destruct (attract_all_keeps this others dt) as (Hp & Ht & _).
  assert (Hv : kept_or_nan3 (velocity this) (velocity (attract_all this others dt)))
    by (apply attract_all_kept; [done|apply kept_or_nan3_refl]).
  split; [exact Hv|]. split.
  - unfold update. simpl. rewrite Hp.
    apply kept_or_nan3_add; [done|apply kept_or_nan3_refl].
  - unfold update. simpl. by rewrite clone_id, Ht.
Qed.

(** The Earth after the Sun, paused. *)
Lemma paused_frame_still_records_witness :
  exists after,
    heap (animate 0.016%float 0%float sun_earth) !! 1 = Some after /\
    kept_or_nan3 (velocity earth) (velocity after) /\
    kept_or_nan3 (mesh_position earth) (mesh_position after) /\
    tracePoints after
    = push_trace traceCapacity (mesh_position after) (tracePoints earth).
Proof.
  apply (paused_frame_still_records 0.016%float sun_earth [0] [] 1 earth).
  - exact wf_sun_earth.
  - reflexivity.
  - apply not_elem_of_cons. split; [lia|apply not_elem_of_nil].
  - apply not_elem_of_nil.
  - reflexivity.
Defined.
